(** * libASPL, script/generate-strings.py: extraction, disambiguation, emission

    The script scans the preprocessed text of CoreAudio/AudioServerPlugIn.h
    with six regular expressions, fills five dictionaries and two sets, and
    renders a jinja2 template into Strings.cpp.

    Modelling choices.
    - A Python [str] is a [string], a character an [ascii] (the names and
      codes of the header are ASCII); [len] is [String.length],
      [a.startswith p] is [String.prefix p a], and the order used by [sorted]
      is the lexicographic order of [String.compare], character by character.
    - A Python [dict] is a [gmap string string], a Python [set] a
      [gset string].  [del d[k]] on a missing key raises [KeyError]: the scan
      that contains it returns an [option], [None] being the exception.
    - [re.finditer] is the regular expression engine of the Python library.
      It is a parameter: a scan consumes the list of (group 1, group 2) pairs
      of the successive matches, in text order.
    - The order in which Python iterates over a [set] depends on the hash
      seed of the process.  It is a parameter of the rendering ([iteration]). *)

From Stdlib Require Import ZArith.
From stdpp Require Import gmap strings sorting.

(** ** Python strings *)

(** [a.startswith(p)] *)
Definition startswith (a p : string) : bool := String.prefix p a.

(** [any([a.startswith(p) for p in ps])] *)
Definition any_startswith (a : string) (ps : list string) : bool :=
  existsb (startswith a) ps.

(** ** selector_is_better (lines 10-29) *)

Definition highprio_prefixes : list string :=
  [ "kAudioObject";
    "kAudioDevice";
    "kAudioStream";
    "kAudioControl";
    "kAudioLevelControl";
    "kAudioPlugIn" ].

Definition is_highprio (a : string) : bool := any_startswith a highprio_prefixes.

Definition selector_is_better (a b : string) : bool :=
  let a_is_highprio := is_highprio a in
  let b_is_highprio := is_highprio b in
  if Bool.eqb a_is_highprio b_is_highprio
  then String.length a <? String.length b
  else a_is_highprio.

(** ** The selector pass (lines 61-62 and 70-99) *)

Record selector_state := SelectorState {
  selector2code : gmap string string;
  code2selector : gmap string string
}.

Definition selector_init : selector_state :=
  {| selector2code := ∅; code2selector := ∅ |}.

(** The four [continue] guards at the head of the loop body. *)
Definition selector_skipped (name : string) : bool :=
  startswith name "kAudioObjectPropertyScope"
  || startswith name "kAudioObjectPropertyElement"
  || startswith name "kAudioHardware"
  || startswith name "kAudioServerPlugInCustomPropertyDataType".

(** The two assignments that end the loop body. *)
Definition selector_store (name code : string) (s2c c2s : gmap string string)
  : selector_state :=
  {| selector2code := <[name := code]> s2c;
     code2selector := <[code := name]> c2s |}.

(** One iteration of the loop, for the match [(name, code)]. *)
Definition selector_step (st : selector_state) (m : string * string)
  : option selector_state :=
  let '(name, code) := m in
  if selector_skipped name then Some st
  else
    match code2selector st !! code with
    | Some other_name =>
        if selector_is_better name other_name then
          (* del selector2code[other_name] *)
          match selector2code st !! other_name with
          | Some _ =>
              Some (selector_store name code
                      (delete other_name (selector2code st))
                      (code2selector st))
          | None => None
          end
        else Some st
    | None =>
        Some (selector_store name code (selector2code st) (code2selector st))
    end.

(** The loop over the matches, from a given state. *)
Fixpoint selector_loop (st : selector_state) (ms : list (string * string))
  : option selector_state :=
  match ms with
  | [] => Some st
  | m :: ms' =>
      match selector_step st m with
      | Some st' => selector_loop st' ms'
      | None => None
      end
  end.

Definition selector_scan (ms : list (string * string)) : option selector_state :=
  selector_loop selector_init ms.

(** ** The four plain dictionaries (lines 63-66 and 101-119)

    [d[name] = code] for each match: a later match of a name overwrites. *)
Definition dict_fill (ms : list (string * string)) : gmap string string :=
  foldl (λ d m, <[m.1 := m.2]> d) ∅ ms.

(** ** The format pass (lines 67-68 and 121-128) *)

Record format_state := FormatState {
  formatID : gset string;
  formatFlag : gset string
}.

Definition format_init : format_state :=
  {| formatID := ∅; formatFlag := ∅ |}.

Definition is_flag_name (name : string) : bool :=
  startswith name "kAudioFormatFlag".

Definition format_step (st : format_state) (m : string * string) : format_state :=
  let '(name, code) := m in
  if is_flag_name name then
    if negb (String.eqb code "0") then
      {| formatID := formatID st; formatFlag := {[name]} ∪ formatFlag st |}
    else st
  else
    {| formatID := {[name]} ∪ formatID st; formatFlag := formatFlag st |}.

Definition format_scan (ms : list (string * string)) : format_state :=
  foldl format_step format_init ms.

(** ** The result of the extraction *)

Record tables := Tables {
  selector : selector_state;
  class2code : gmap string string;
  scope2code : gmap string string;
  operation2code : gmap string string;
  error2code : gmap string string;
  format : format_state
}.

(** The six patterns handed to [re.finditer]. *)
Definition selector_pattern : string := "(kAudio\S+Property\S+)\s*=\s*('\S+')".
Definition class_pattern : string := "(kAudio\S+ClassID)\s*=\s*('\S+')".
Definition scope_pattern : string := "(kAudioObjectPropertyScope\S+)\s*=\s*('\S+')".
Definition operation_pattern : string := "(kAudioServerPlugInIOOperation\S+)\s*=\s*('\S+')".
Definition error_pattern : string := "(kAudioHardware\S+)\s*=\s*('\S+')".
Definition format_pattern : string := "(kAudioFormat\S+)\s*=\s*(\S+)".

(** ** sorted and the iteration over a set

    [sorted(xs)] returns the elements of [xs] in ascending order. *)
Definition sorted (xs : list string) : list string := merge_sort String.le xs.

(** Strict order of two names: [a < b] in Python. *)
Definition name_lt (a b : string) : Prop := String.ltb a b = true.

(** An order in which the runtime may hand out the elements of a set (or the
    keys of a dictionary): each element once, in any order. *)
Record iteration := Iteration {
  iterate : gset string → list string;
  iterate_perm : ∀ s, iterate s ≡ₚ elements s
}.

(** [sorted(d.keys())] and [sorted(s)] *)
Definition sorted_keys (it : iteration) (d : gmap string string) : list string :=
  sorted (iterate it (dom d)).
Definition sorted_set (it : iteration) (s : gset string) : list string :=
  sorted (iterate it s).

(** ** The template (lines 130-250)

    With [trim_blocks] and [lstrip_blocks] a line that holds only a block tag
    leaves nothing in the output, so the rendered text is a sequence of
    lines: the fixed ones, and those of each turn of a [for] loop. *)

Definition dquote : string := String (Ascii.ascii_of_nat 34) EmptyString.
Definition newline : string := String (Ascii.ascii_of_nat 10) EmptyString.

Definition generator_input : string := "CoreAudio/AudioServerPlugIn.h".

Definition case_line (name : string) : string := "    case " +:+ name +:+ ":".
Definition return_line (name : string) : string :=
  "        return " +:+ dquote +:+ name +:+ dquote +:+ ";".

(** One turn of the loop of a switch-based function. *)
Definition case_lines (name : string) : list string :=
  [ case_line name; return_line name ].

Definition default_line : string := "    default:".
Definition fallback_line (arg : string) : string :=
  "        return CodeToString(" +:+ arg +:+ ");".

Definition switch_function (signature subject : string) (fixed : list string)
    (names : list string) (arg : string) : list string :=
  [ signature; "{"; "    switch (" +:+ subject +:+ ") {" ]
  ++ fixed
  ++ flat_map case_lines names
  ++ [ default_line; fallback_line arg; "    }"; "}" ].

Definition ClassIDToString_lines (names : list string) : list string :=
  switch_function "std::string ClassIDToString(AudioClassID classID)"
    "classID" [] names "classID".

Definition PropertySelectorToString_lines (names : list string) : list string :=
  switch_function
    "std::string PropertySelectorToString(AudioObjectPropertySelector selector)"
    "selector" [] names "selector".

Definition PropertyScopeToString_lines (names : list string) : list string :=
  switch_function
    "std::string PropertyScopeToString(AudioObjectPropertyScope scope)"
    "scope" [] names "scope".

Definition OperationIDToString_lines (names : list string) : list string :=
  switch_function "std::string OperationIDToString(UInt32 operationID)"
    "operationID" [] names "operationID".

(** The case that the template writes out ahead of the loop. *)
Definition no_error_name : string := "kAudioHardwareNoError".
Definition no_error_lines : list string :=
  [ case_line no_error_name;
    "        return " +:+ dquote +:+ "OK" +:+ dquote +:+ ";" ].

Definition StatusToString_lines (names : list string) : list string :=
  switch_function "std::string StatusToString(OSStatus status)"
    "status" no_error_lines names "UInt32(status)".

Definition FormatIDToString_lines (names : list string) : list string :=
  switch_function "std::string FormatIDToString(AudioFormatID formatID)"
    "formatID" [] names "formatID".

Definition bit_test_line (name : string) : string :=
  "    if (formatFlags & " +:+ name +:+ ") {".

(** One turn of the loop of FormatFlagsToString. *)
Definition flag_lines (name : string) : list string :=
  [ bit_test_line name;
    "        if (!ret.empty()) {";
    "            ret += " +:+ dquote +:+ "|" +:+ dquote +:+ ";";
    "        }";
    "        ret += " +:+ dquote +:+ name +:+ dquote +:+ ";";
    "    }" ].

Definition FormatFlagsToString_lines (names : list string) : list string :=
  [ "std::string FormatFlagsToString(AudioFormatFlags formatFlags)";
    "{";
    "    std::string ret;" ]
  ++ flat_map flag_lines names
  ++ [ "    return ret;"; "}" ].

Definition preamble_lines (generator_script : string) : list string :=
  [ "// THIS FILE IS AUTO-GENERATED. DO NOT EDIT!";
    "";
    "// Generator: " +:+ generator_script;
    "// Source: " +:+ generator_input;
    "";
    "// Copyright (c) libASPL authors";
    "// Licensed under MIT";
    "";
    "#include " +:+ dquote +:+ "Strings.hpp" +:+ dquote;
    "";
    "namespace aspl {";
    "" ].

Definition render_lines (it : iteration) (generator_script : string) (t : tables)
  : list string :=
  preamble_lines generator_script
  ++ ClassIDToString_lines (sorted_keys it (class2code t)) ++ [ "" ]
  ++ PropertySelectorToString_lines
       (sorted_keys it (selector2code (selector t))) ++ [ "" ]
  ++ PropertyScopeToString_lines (sorted_keys it (scope2code t)) ++ [ "" ]
  ++ OperationIDToString_lines (sorted_keys it (operation2code t)) ++ [ "" ]
  ++ StatusToString_lines (sorted_keys it (error2code t)) ++ [ "" ]
  ++ FormatIDToString_lines (sorted_set it (formatID (format t))) ++ [ "" ]
  ++ FormatFlagsToString_lines (sorted_set it (formatFlag (format t))) ++ [ "" ]
  ++ [ "} // namespace aspl" ].

(** [template.render(...)] *)
Definition render (it : iteration) (generator_script : string) (t : tables)
  : string :=
  String.concat newline (render_lines it generator_script t).

(** What [print(text, file=out)] writes. *)
Definition output (text : string) : string := text +:+ newline.

(** ** Reading the emitted lines back

    [strip_prefix p s] is [Some r] when [s = p ++ r]; [strip_suffix q s] is
    [Some r] when [s = r ++ q]. *)
Fixpoint strip_prefix (p s : string) : option string :=
  match p with
  | EmptyString => Some s
  | String a p' =>
      match s with
      | String b s' => if Ascii.eqb a b then strip_prefix p' s' else None
      | EmptyString => None
      end
  end.

Fixpoint strip_suffix (q s : string) : option string :=
  if String.eqb s q then Some EmptyString
  else
    match s with
    | EmptyString => None
    | String a s' => String a <$> strip_suffix q s'
    end.

Definition between (p q line : string) : option string :=
  strip_prefix p line ≫= strip_suffix q.

(** The name of a line [    case NAME:]. *)
Definition case_label (line : string) : option string :=
  between "    case " ":" line.

(** The name of a line [    if (formatFlags & NAME) {]. *)
Definition bit_test_label (line : string) : option string :=
  between "    if (formatFlags & " ") {" line.

(** The argument of a line [        return CodeToString(ARG);]. *)
Definition fallback_call (line : string) : option string :=
  between "        return CodeToString(" ");" line.

Definition case_labels (lines : list string) : list string :=
  omap case_label lines.
Definition bit_test_labels (lines : list string) : list string :=
  omap bit_test_label lines.
Definition fallback_calls (lines : list string) : list string :=
  omap fallback_call lines.

(** A list of names in strictly ascending order. *)
Definition ascending (names : list string) : Prop :=
  StronglySorted name_lt names.

(** ** What the emitted FormatFlagsToString computes

    The emitted function starts from an empty [ret] and runs, for each name
    in the order of emission,
    [if (formatFlags & NAME) { if (!ret.empty()) { ret += SEP; } ret += NAME; }]
    where SEP is the one-character string of a vertical bar, and returns
    [ret].  [value] gives the number that the header assigns to a name. *)
Definition flag_branch (value : string → Z) (formatFlags : Z)
    (ret name : string) : string :=
  if Z.eqb (Z.land formatFlags (value name)) 0 then ret
  else (if String.eqb ret EmptyString then ret else ret +:+ "|") +:+ name.

Definition FormatFlagsToString (value : string → Z) (names : list string)
    (formatFlags : Z) : string :=
  foldl (flag_branch value formatFlags) EmptyString names.


(** ** The whole run (lines 59-128 and 239-253) *)

Section Run.
(** [re.finditer(pattern, defs)], as the list of its (group 1, group 2). *)
Variable finditer : string → string → list (string * string).

Definition extract (defs : string) : option tables :=
  st ← selector_scan (finditer selector_pattern defs);
  Some {| selector := st;
          class2code := dict_fill (finditer class_pattern defs);
          scope2code := dict_fill (finditer scope_pattern defs);
          operation2code := dict_fill (finditer operation_pattern defs);
          error2code := dict_fill (finditer error_pattern defs);
          format := format_scan (finditer format_pattern defs) |}.

Definition generate (it : iteration) (generator_script defs : string)
  : option string :=
  t ← extract defs;
  Some (output (render it generator_script t)).
End Run.

(** The iteration that hands out a set in the order of [elements]. *)
Definition elements_iteration : iteration :=
  {| iterate := elements; iterate_perm := λ s, reflexivity (elements s) |}.

(** The iteration that hands out a set in the reverse of that order. *)
Definition reverse_iteration : iteration :=
  {| iterate := λ s, reverse (elements s);
     iterate_perm := λ s, reverse_Permutation (elements s) |}.

(** ** Notions used to state the properties of the selector pass *)

(** Every entry of the forward map is mirrored by the reverse map. *)
Definition consistent (st : selector_state) : Prop :=
  ∀ name code,
    selector2code st !! name = Some code → code2selector st !! code = Some name.

(** The matches that pass the four guards. *)
Definition accepted (ms : list (string * string)) : list (string * string) :=
  List.filter (λ m, negb (selector_skipped m.1)) ms.

(** No accepted name is matched with two different codes. *)
Definition one_code_per_name (ms : list (string * string)) : Prop :=
  ∀ name c1 c2,
    In (name, c1) (accepted ms) → In (name, c2) (accepted ms) → c1 = c2.

(** [name] is matched with [code] and no name matched with [code] is better. *)
Definition best_for (ms : list (string * string)) (name code : string) : Prop :=
  In (name, code) (accepted ms)
  ∧ ∀ other, In (other, code) (accepted ms) → selector_is_better other name = false.

(** Among the names matched with a code, only one is best. *)
Definition unique_best (ms : list (string * string)) : Prop :=
  ∀ code n1 n2, best_for ms n1 code → best_for ms n2 code → n1 = n2.

(** Among the names matched with [code], only one is best: no tie for the
    first place of that code. *)
Definition unique_best_for (ms : list (string * string)) (code : string) : Prop :=
  ∀ n1 n2, best_for ms n1 code → best_for ms n2 code → n1 = n2.

(** The preference rule in the words of the specification: a name that is
    alone in being high-priority wins; otherwise the challenger wins exactly
    when it is strictly shorter. *)
Definition challenger_wins (challenger incumbent : string) : bool :=
  match is_highprio challenger, is_highprio incumbent with
  | true, false => true
  | false, true => false
  | _, _ => String.length challenger <? String.length incumbent
  end.

(** What the scan has established after the matches [ms], when no accepted
    name comes with two codes. *)
Record scanned (ms : list (string * string)) (st : selector_state) : Prop := {
  scanned_seen : ∀ n c, selector2code st !! n = Some c → In (n, c) (accepted ms);
  scanned_forward : consistent st;
  scanned_reverse : ∀ n c,
    code2selector st !! c = Some n → selector2code st !! n = Some c;
  scanned_winner : ∀ n c, In (n, c) (accepted ms) →
    ∃ w, code2selector st !! c = Some w ∧ selector_is_better n w = false
}.


(** ** Inputs of the examples *)

(** Two matches of one code, the longer name first. *)
Definition streams_matches : list (string * string) :=
  [ ("kAudioClockDevicePropertyStreams", "'stm#'");
    ("kAudioDevicePropertyStreams", "'stm#'") ].

(** One name matched with two codes. *)
Definition recoded_matches : list (string * string) :=
  [ ("kAudioDevicePropertyLatency", "'ltnc'");
    ("kAudioDevicePropertyLatency", "'lat2'") ].

(** Two names of one code, both high-priority and of one length. *)
Definition latency_matches : list (string * string) :=
  [ ("kAudioDevicePropertyLatency", "'ltnc'");
    ("kAudioStreamPropertyLatency", "'ltnc'") ].

Definition latency_matches_swapped : list (string * string) :=
  [ ("kAudioStreamPropertyLatency", "'ltnc'");
    ("kAudioDevicePropertyLatency", "'ltnc'") ].

(** A tie on one code beside an untied conflict on another. *)
Definition mixed_matches : list (string * string) :=
  [ ("kAudioDevicePropertyLatency", "'ltnc'");
    ("kAudioStreamPropertyLatency", "'ltnc'");
    ("kAudioClockDevicePropertyStreams", "'stm#'");
    ("kAudioDevicePropertyStreams", "'stm#'") ].

(** The two matches of the scenario of the specification. *)
Definition float_bigendian_matches : list (string * string) :=
  [ ("kAudioFormatFlagIsFloat", "1");
    ("kAudioFormatFlagIsBigEndian", "0") ].

(** One error of the header. *)
Definition bad_device_matches : list (string * string) :=
  [ ("kAudioHardwareBadDeviceError", "'!dev'") ].

(** The header's values of the two flags of the scenario. *)
Definition flag_value (name : string) : Z :=
  if String.eqb name "kAudioFormatFlagIsFloat" then 1%Z
  else if String.eqb name "kAudioFormatFlagIsBigEndian" then 2%Z
  else 0%Z.

(** * Properties *)

(** ** The selector pass *)

Lemma selector_is_better_irrefl a : selector_is_better a a = false.
Proof.
  unfold selector_is_better. rewrite Bool.eqb_reflx. apply Nat.ltb_irrefl.
Qed.

(** A property that every iteration keeps holds when the loop ends. *)
Lemma selector_loop_inv (P : selector_state → Prop) :
  (∀ st m st', P st → selector_step st m = Some st' → P st') →
  ∀ ms st st', P st → selector_loop st ms = Some st' → P st'.
Proof.
  intros Hstep ms. induction ms as [|m ms IH]; intros st st' HP Hloop.
  - simpl in Hloop. by simplify_eq.
  - simpl in Hloop. destruct (selector_step st m) as [st1|] eqn:Hm; [|done].
    eapply IH; [|exact Hloop]. eapply Hstep; eauto.
Qed.

Lemma selector_loop_app st ms1 ms2 :
  selector_loop st (ms1 ++ ms2) = selector_loop st ms1 ≫= λ st1, selector_loop st1 ms2.
Proof.
  revert st. induction ms1 as [|m ms1 IH]; intros st; simpl; [done|].
  destruct (selector_step st m); simpl; [apply IH|done].
Qed.

(** The three ways in which an iteration ends without raising. *)
Lemma selector_step_cases st name code st' :
  selector_step st (name, code) = Some st' →
  (selector_skipped name = true ∧ st' = st)
  ∨ (selector_skipped name = false
     ∧ ∃ other, code2selector st !! code = Some other
       ∧ selector_is_better name other = false ∧ st' = st)
  ∨ (selector_skipped name = false
     ∧ ∃ other, code2selector st !! code = Some other
       ∧ selector_is_better name other = true
       ∧ is_Some (selector2code st !! other)
       ∧ st' = selector_store name code
                 (delete other (selector2code st)) (code2selector st))
  ∨ (selector_skipped name = false
     ∧ code2selector st !! code = None
     ∧ st' = selector_store name code (selector2code st) (code2selector st)).
Proof.
  unfold selector_step. intros H.
  destruct (selector_skipped name); [left; by simplify_eq|].
  destruct (code2selector st !! code) as [other|] eqn:Hc.
  - destruct (selector_is_better name other) eqn:Hb.
    + destruct (selector2code st !! other) eqn:Ho; [|done].
      right; right; left. split; [done|]. exists other.
      repeat split; eauto. by simplify_eq.
    + right; left. split; [done|]. exists other. by simplify_eq.
  - right; right; right. by simplify_eq.
Qed.

Lemma consistent_init : consistent selector_init.
Proof. intros name code. simpl. by rewrite lookup_empty. Qed.

Lemma consistent_step st m st' :
  consistent st → selector_step st m = Some st' → consistent st'.
Proof.
  destruct m as [name code]. intros Hc Hstep.
  apply selector_step_cases in Hstep
    as [[_ ->]|[(_ & other & _ & _ & ->)|[(_ & other & Ho & Hb & _ & ->)|(_ & Hn & ->)]]];
    try done.
  - intros n c. simpl. rewrite !lookup_insert.
    destruct (decide (name = n)) as [->|Hne].
    + intros [= ->]. by rewrite decide_True.
    + intros Hd. apply lookup_delete_Some in Hd as [Hne' Hd].
      apply Hc in Hd. destruct (decide (code = c)) as [->|]; [|done].
      congruence.
  - intros n c. simpl. rewrite !lookup_insert.
    destruct (decide (name = n)) as [->|Hne].
    + intros [= ->]. by rewrite decide_True.
    + intros Hd. apply Hc in Hd. destruct (decide (code = c)) as [->|]; [|done].
      congruence.
Qed.

Lemma consistent_scan ms st : selector_scan ms = Some st → consistent st.
Proof.
  apply (selector_loop_inv consistent); [|apply consistent_init].
  intros ????. by apply consistent_step.
Qed.

(** C9. After each match of the selector scan, every entry name -> code of
    selector2code has code2selector[code] == name: the state reached after
    any number [k] of matches is consistent.  The reverse map can hold more:
    there is a scan after which code2selector keeps a code that no entry of
    selector2code has any more. *)
Theorem selector_forward_consistency :
  (∀ (ms : list (string * string)) (k : nat) (st : selector_state),
      selector_scan (take k ms) = Some st → consistent st)
  ∧ (∃ ms st code name,
        selector_scan ms = Some st
        ∧ code2selector st !! code = Some name
        ∧ ∀ n, selector2code st !! n ≠ Some code).
Proof.
  split.
  - intros ms k st. apply consistent_scan.
  - exists recoded_matches. eexists. exists "'ltnc'", "kAudioDevicePropertyLatency".
    split; [reflexivity|]. split; [by vm_compute|].
    intros n. simpl. rewrite lookup_insert. case_decide; [done|].
    rewrite lookup_insert. case_decide; [done|]. by rewrite lookup_empty.
Qed.

Lemma selector_forward_consistency_witness :
  ∃ st, selector_scan (take 1 streams_matches) = Some st ∧ consistent st.
Proof.
  eexists. split; [reflexivity|].
  apply (proj1 selector_forward_consistency streams_matches 1).
  reflexivity.
Defined.

(** C2. When the selector pass has completed, no two distinct names of
    selector2code have the same code. *)
Theorem selector_codes_unique (ms : list (string * string))
    (st : selector_state) (n1 n2 code : string) :
  selector_scan ms = Some st →
  selector2code st !! n1 = Some code →
  selector2code st !! n2 = Some code →
  n1 = n2.
Proof.
  intros Hscan H1 H2. apply consistent_scan in Hscan.
  apply Hscan in H1. apply Hscan in H2. congruence.
Qed.

Lemma selector_codes_unique_witness :
  ∃ st, selector_scan streams_matches = Some st
    ∧ selector2code st !! "kAudioDevicePropertyStreams" = Some "'stm#'"
    ∧ "kAudioDevicePropertyStreams" = "kAudioDevicePropertyStreams".
Proof.
  eexists. split; [reflexivity|]. split; [by vm_compute|].
  eapply (selector_codes_unique streams_matches _ _ _ "'stm#'");
    [reflexivity | by vm_compute | by vm_compute].
Defined.

Lemma skipped_absent_step st m st' :
  (∀ name, selector_skipped name = true → selector2code st !! name = None) →
  selector_step st m = Some st' →
  ∀ name, selector_skipped name = true → selector2code st' !! name = None.
Proof.
  destruct m as [name code]. intros HP Hstep n Hn.
  apply selector_step_cases in Hstep
    as [[_ ->]|[(_ & other & _ & _ & ->)|[(Hs & other & _ & _ & _ & ->)|(Hs & _ & ->)]]];
    auto; simpl.
  - rewrite lookup_insert_ne by congruence.
    apply lookup_delete_None. right. by apply HP.
  - rewrite lookup_insert_ne by congruence. by apply HP.
Qed.

(** C4. A name that starts with the scope marker, the element marker, the
    hardware-error marker or the custom-property-type marker is in no entry
    of the final selector2code, whatever the matches. *)
Theorem selector_exclusion (ms : list (string * string))
    (st : selector_state) (name : string) :
  selector_scan ms = Some st →
  startswith name "kAudioObjectPropertyScope" = true
  ∨ startswith name "kAudioObjectPropertyElement" = true
  ∨ startswith name "kAudioHardware" = true
  ∨ startswith name "kAudioServerPlugInCustomPropertyDataType" = true →
  selector2code st !! name = None.
Proof.
  intros Hscan Hname.
  assert (selector_skipped name = true) as Hs.
  { unfold selector_skipped. destruct Hname as [-> | [-> | [-> | ->]]];
      rewrite ?orb_true_r; done. }
  clear Hname. revert name Hs.
  eapply (selector_loop_inv
    (λ st, ∀ name, selector_skipped name = true → selector2code st !! name = None));
    [| |exact Hscan].
  - intros ????. by apply skipped_absent_step.
  - intros name _. apply lookup_empty.
Qed.

Lemma selector_exclusion_witness :
  ∃ st,
    selector_scan
      [ ("kAudioObjectPropertyScopeGlobal", "'glob'");
        ("kAudioObjectPropertyName", "'lnam'") ] = Some st
    ∧ selector2code st !! "kAudioObjectPropertyScopeGlobal" = None.
Proof.
  eexists. split; [reflexivity|].
  eapply (selector_exclusion
            [ ("kAudioObjectPropertyScopeGlobal", "'glob'");
              ("kAudioObjectPropertyName", "'lnam'") ]); [reflexivity|].
  left. reflexivity.
Defined.

Lemma selector_is_better_wins a b :
  selector_is_better a b = challenger_wins a b.
Proof.
  unfold selector_is_better, challenger_wins.
  by destruct (is_highprio a), (is_highprio b).
Qed.

(** C3. A challenger that passes the guards and has the code of an entry of
    selector2code (the incumbent): the loop applies selector_is_better, which
    is the stated rule (a name alone in being high-priority wins, otherwise
    the strictly shorter one, and the incumbent stays on a tie); a winning
    challenger takes the code and the incumbent is removed, a losing one
    leaves the state as it was; and a challenger wins only if it is strictly
    shorter, or high-priority while the incumbent is not. *)
Theorem disambiguation_rule (ms : list (string * string)) (st : selector_state)
    (incumbent challenger code : string) :
  selector_scan ms = Some st →
  selector2code st !! incumbent = Some code →
  selector_skipped challenger = false →
  selector_is_better challenger incumbent = challenger_wins challenger incumbent
  ∧ (∃ st', selector_step st (challenger, code) = Some st'
       ∧ if challenger_wins challenger incumbent
         then selector2code st' !! challenger = Some code
              ∧ selector2code st' !! incumbent = None
              ∧ code2selector st' !! code = Some challenger
         else st' = st)
  ∧ (challenger_wins challenger incumbent = true →
       String.length challenger < String.length incumbent
       ∨ (is_highprio challenger = true ∧ is_highprio incumbent = false)).
Proof.
  intros Hscan Hinc Hskip. split; [apply selector_is_better_wins|]. split.
  - pose proof (consistent_scan _ _ Hscan _ _ Hinc) as Hrev.
    unfold selector_step. rewrite Hskip, Hrev, Hinc.
    rewrite selector_is_better_wins.
    destruct (challenger_wins challenger incumbent) eqn:Hw; [|eauto].
    eexists. split; [done|]. simpl.
    assert (challenger ≠ incumbent) as Hne.
    { intros ->. rewrite <- selector_is_better_wins in Hw.
      by rewrite selector_is_better_irrefl in Hw. }
    rewrite !lookup_insert_eq. split; [done|]. split; [|done].
    rewrite lookup_insert_ne by done. apply lookup_delete_eq.
  - unfold challenger_wins.
    destruct (is_highprio challenger), (is_highprio incumbent);
      intros H; first [ left; by apply Nat.ltb_lt | by right ].
Qed.

Lemma disambiguation_rule_witness :
  ∃ st st',
    selector_scan [ ("kAudioClockDevicePropertyStreams", "'stm#'") ] = Some st
    ∧ selector_step st ("kAudioDevicePropertyStreams", "'stm#'") = Some st'
    ∧ selector2code st' !! "kAudioDevicePropertyStreams" = Some "'stm#'"
    ∧ selector2code st' !! "kAudioClockDevicePropertyStreams" = None.
Proof.
  eexists.
  destruct (disambiguation_rule
              [ ("kAudioClockDevicePropertyStreams", "'stm#'") ] _
              "kAudioClockDevicePropertyStreams" "kAudioDevicePropertyStreams"
              "'stm#'" eq_refl eq_refl eq_refl) as (_ & (st' & Hstep & Hres) & _).
  exists st'. split; [reflexivity|]. split; [exact Hstep|].
  simpl in Hres. destruct Hres as (H1 & H2 & _). by split.
Defined.

(** ** Order of discovery *)

Lemma selector_is_better_trans a b c :
  selector_is_better a b = true → selector_is_better b c = true →
  selector_is_better a c = true.
Proof.
  unfold selector_is_better.
  destruct (is_highprio a), (is_highprio b), (is_highprio c); simpl;
    rewrite ?Nat.ltb_lt; try done; lia.
Qed.

Lemma accepted_In ms name code :
  In (name, code) (accepted ms) ↔ In (name, code) ms ∧ selector_skipped name = false.
Proof.
  unfold accepted. rewrite filter_In. simpl. by rewrite negb_true_iff.
Qed.

Lemma accepted_snoc ms name code :
  accepted (ms ++ [(name, code)])
  = accepted ms ++ (if selector_skipped name then [] else [(name, code)]).
Proof.
  unfold accepted. rewrite List.filter_app. simpl.
  by destruct (selector_skipped name).
Qed.

Lemma scanned_init : scanned [] selector_init.
Proof.
  split; simpl.
  - intros n c. by rewrite lookup_empty.
  - apply consistent_init.
  - intros n c. by rewrite lookup_empty.
  - intros n c [].
Qed.

Lemma scanned_step ms st name code :
  one_code_per_name (ms ++ [(name, code)]) →
  scanned ms st →
  ∃ st', selector_step st (name, code) = Some st'
         ∧ scanned (ms ++ [(name, code)]) st'.
Proof.
  intros Hone [Hseen Hfwd Hrev Hwin].
  assert (∀ c, selector2code st !! name = Some c →
               selector_skipped name = false → c = code) as Hname.
  { intros c Hc Hs. apply (Hone name); rewrite accepted_snoc, Hs, in_app_iff.
    - left. by apply Hseen.
    - right. by left. }
  unfold selector_step. destruct (selector_skipped name) eqn:Hskip.
  { exists st. split; [done|].
    split; try done; rewrite accepted_snoc, Hskip, app_nil_r; done. }
  destruct (code2selector st !! code) as [other|] eqn:Hcode.
  - destruct (selector_is_better name other) eqn:Hb.
    + pose proof (Hrev _ _ Hcode) as Hother. rewrite Hother.
      eexists. split; [done|].
      assert (name ≠ other) as Hne.
      { intros ->. by rewrite selector_is_better_irrefl in Hb. }
      split; simpl.
      * intros n c. rewrite accepted_snoc, Hskip, in_app_iff.
        rewrite lookup_insert. case_decide as Hn.
        -- intros [= <-]. subst n. right. by left.
        -- intros Hd. apply lookup_delete_Some in Hd as [_ Hd]. left. eauto.
      * eapply (consistent_step st (name, code)); [exact Hfwd|].
        unfold selector_step. by rewrite Hskip, Hcode, Hb, Hother.
      * intros n c. rewrite lookup_insert. case_decide as Hc.
        -- intros [= <-]. subst c. by rewrite lookup_insert_eq.
        -- intros Hn. pose proof (Hrev _ _ Hn) as Hn'.
           rewrite lookup_insert_ne.
           ++ rewrite lookup_delete_ne; [done|]. intros <-. congruence.
           ++ intros <-. apply Hc. symmetry. by apply Hname.
      * intros n c. rewrite accepted_snoc, Hskip, in_app_iff.
        intros [Hin|[[= <- <-]|[]]].
        -- destruct (Hwin _ _ Hin) as (w & Hw & Hbw).
           rewrite lookup_insert. case_decide as Hc.
           ++ subst c. exists name. split; [done|].
              assert (w = other) as -> by congruence.
              destruct (selector_is_better n name) eqn:Hnn; [|done].
              by rewrite (selector_is_better_trans _ _ _ Hnn Hb) in Hbw.
           ++ eauto.
        -- exists name. rewrite lookup_insert_eq.
           split; [done|apply selector_is_better_irrefl].
    + exists st. split; [done|]. split; try done.
      * intros n c Hn. rewrite accepted_snoc, Hskip, in_app_iff. left. eauto.
      * intros n c. rewrite accepted_snoc, Hskip, in_app_iff.
        intros [Hin|[[= <- <-]|[]]]; eauto.
  - eexists. split; [done|]. split; simpl.
    + intros n c. rewrite accepted_snoc, Hskip, in_app_iff.
      rewrite lookup_insert. case_decide as Hn.
      * intros [= <-]. subst n. right. by left.
      * intros Hd. left. eauto.
    + eapply (consistent_step st (name, code)); [exact Hfwd|].
      unfold selector_step. by rewrite Hskip, Hcode.
    + intros n c. rewrite lookup_insert. case_decide as Hc.
      * intros [= <-]. subst c. by rewrite lookup_insert_eq.
      * intros Hn. pose proof (Hrev _ _ Hn) as Hn'.
        rewrite lookup_insert_ne; [done|].
        intros <-. apply Hc. symmetry. by apply Hname.
    + intros n c. rewrite accepted_snoc, Hskip, in_app_iff.
      intros [Hin|[[= <- <-]|[]]].
      * destruct (Hwin _ _ Hin) as (w & Hw & Hbw).
        exists w. split; [|done]. rewrite lookup_insert_ne; [done|].
        intros <-. congruence.
      * exists name. rewrite lookup_insert_eq.
        split; [done|apply selector_is_better_irrefl].
Qed.

Lemma one_code_per_name_app_l ms1 ms2 :
  one_code_per_name (ms1 ++ ms2) → one_code_per_name ms1.
Proof.
  intros H name c1 c2 H1 H2. apply (H name);
    apply accepted_In; rewrite in_app_iff;
    [apply accepted_In in H1|apply accepted_In in H2]; tauto.
Qed.

(** The scan does not raise when no accepted name comes with two codes. *)
Lemma scan_scanned ms :
  one_code_per_name ms → ∃ st, selector_scan ms = Some st ∧ scanned ms st.
Proof.
  induction ms as [|[name code] ms IH] using rev_ind; intros Hone.
  - exists selector_init. split; [done|apply scanned_init].
  - destruct (IH (one_code_per_name_app_l _ _ Hone)) as (st & Hscan & Hst).
    destruct (scanned_step ms st name code Hone Hst) as (st' & Hstep & Hst').
    exists st'. split; [|done].
    unfold selector_scan in *. rewrite selector_loop_app, Hscan.
    cbn -[selector_step]. by rewrite Hstep.
Qed.

(** The final entries are exactly the best names, when the best is unique. *)
Lemma scanned_best ms st :
  unique_best ms → scanned ms st →
  ∀ n c, selector2code st !! n = Some c ↔ best_for ms n c.
Proof.
  intros Huniq [Hseen Hfwd Hrev Hwin].
  assert (∀ n c, selector2code st !! n = Some c → best_for ms n c) as Hbest.
  { intros n c Hn. split; [eauto|]. intros other Hin.
    destruct (Hwin _ _ Hin) as (w & Hw & Hbw).
    apply Hfwd in Hn. congruence. }
  intros n c. split; [apply Hbest|]. intros Hn.
  destruct (Hwin n c (proj1 Hn)) as (w & Hw & _).
  apply Hrev in Hw. by rewrite (Huniq c n w Hn (Hbest _ _ Hw)).
Qed.

Lemma best_for_perm ms1 ms2 n c :
  ms1 ≡ₚ ms2 → best_for ms1 n c → best_for ms2 n c.
Proof.
  intros Hp [Hin Hbest].
  assert (∀ x y, In (x, y) (accepted ms1) ↔ In (x, y) (accepted ms2)) as Hacc.
  { intros x y. rewrite !accepted_In.
    split; intros [H ?]; (split; [|done]); revert H; apply Permutation_in;
      [done|by symmetry]. }
  split; [by apply Hacc|]. intros other Ho. apply Hbest. by apply Hacc.
Qed.

Lemma one_code_per_name_perm ms1 ms2 :
  ms1 ≡ₚ ms2 → one_code_per_name ms1 → one_code_per_name ms2.
Proof.
  intros Hp H name c1 c2 H1 H2. apply (H name);
    apply accepted_In; [apply accepted_In in H1|apply accepted_In in H2];
    (split; [|tauto]); eapply Permutation_in; [symmetry; exact Hp|tauto
                                              |symmetry; exact Hp|tauto].
Qed.

Lemma unique_best_perm ms1 ms2 :
  ms1 ≡ₚ ms2 → unique_best ms1 → unique_best ms2.
Proof.
  intros Hp H code n1 n2 H1 H2.
  apply (H code); (apply (best_for_perm ms2 ms1); [by symmetry|done]).
Qed.

(** C1 fails as stated: the two orders of discovery of the pairs
    [kAudioDevicePropertyLatency = 'ltnc'] and
    [kAudioStreamPropertyLatency = 'ltnc'] end with different names for the
    code ['ltnc'], the first one discovered each time. *)
Lemma order_changes_winner :
  latency_matches ≡ₚ latency_matches_swapped
  ∧ selector2code <$> selector_scan latency_matches
    = Some {[ "kAudioDevicePropertyLatency" := "'ltnc'" ]}
  ∧ selector2code <$> selector_scan latency_matches_swapped
    = Some {[ "kAudioStreamPropertyLatency" := "'ltnc'" ]}.
Proof.
  split; [apply perm_swap|]. split; vm_compute; reflexivity.
Qed.

(** When every code has a single best name, the two maps as a whole do not
    depend on the order of discovery. *)
Lemma selector_maps_order_independent (ms1 ms2 : list (string * string)) :
  ms1 ≡ₚ ms2 → one_code_per_name ms1 → unique_best ms1 →
  ∃ st1 st2,
    selector_scan ms1 = Some st1
    ∧ selector_scan ms2 = Some st2
    ∧ selector2code st1 = selector2code st2
    ∧ code2selector st1 = code2selector st2
    ∧ ∀ n c, selector2code st1 !! n = Some c ↔ best_for ms1 n c.
Proof.
  intros Hp Hone1 Huniq1.
  pose proof (one_code_per_name_perm _ _ Hp Hone1) as Hone2.
  pose proof (unique_best_perm _ _ Hp Huniq1) as Huniq2.
  destruct (scan_scanned ms1 Hone1) as (st1 & Hscan1 & Hst1).
  destruct (scan_scanned ms2 Hone2) as (st2 & Hscan2 & Hst2).
  pose proof (scanned_best ms1 st1 Huniq1 Hst1) as Hb1.
  pose proof (scanned_best ms2 st2 Huniq2 Hst2) as Hb2.
  assert (∀ n c, selector2code st1 !! n = Some c ↔ selector2code st2 !! n = Some c)
    as Hfwd.
  { intros n c. rewrite Hb1, Hb2. split; apply best_for_perm; [done|by symmetry]. }
  exists st1, st2. split; [done|]. split; [done|].
  split; [|split; [|exact Hb1]].
  - apply map_eq. intros n. apply option_eq. intros c. apply Hfwd.
  - apply map_eq. intros c. apply option_eq. intros n.
    split; intros H.
    + apply (scanned_forward _ _ Hst2), Hfwd. by apply (scanned_reverse _ _ Hst1).
    + apply (scanned_forward _ _ Hst1), Hfwd. by apply (scanned_reverse _ _ Hst2).
Qed.

(** The final entries of a code are exactly its best names, when the best
    name of that code is unique. *)
Lemma scanned_best_for ms st code :
  unique_best_for ms code → scanned ms st →
  ∀ n, selector2code st !! n = Some code ↔ best_for ms n code.
Proof.
  intros Huniq [Hseen Hfwd Hrev Hwin].
  assert (∀ n, selector2code st !! n = Some code → best_for ms n code) as Hbest.
  { intros n Hn. split; [eauto|]. intros other Hin.
    destruct (Hwin _ _ Hin) as (w & Hw & Hbw).
    apply Hfwd in Hn. congruence. }
  intros n. split; [apply Hbest|]. intros Hn.
  destruct (Hwin n code (proj1 Hn)) as (w & Hw & _).
  apply Hrev in Hw. by rewrite (Huniq n w Hn (Hbest _ Hw)).
Qed.

(** C1, amended. When no accepted name is matched with two codes, a code
    that has a single best name (no tie for its first place) keeps that name
    whatever the order of discovery: the scan of any permutation of the
    matches completes, and the entry of the code in selector2code and in
    code2selector is the same as before, namely the best name of the code.
    Ties on other codes do not matter. *)
Theorem disambiguation_order_independent (ms1 ms2 : list (string * string))
    (code : string) :
  ms1 ≡ₚ ms2 → one_code_per_name ms1 → unique_best_for ms1 code →
  ∃ st1 st2,
    selector_scan ms1 = Some st1
    ∧ selector_scan ms2 = Some st2
    ∧ (∀ name, selector2code st1 !! name = Some code
               ↔ selector2code st2 !! name = Some code)
    ∧ code2selector st1 !! code = code2selector st2 !! code
    ∧ (∀ name, selector2code st1 !! name = Some code ↔ best_for ms1 name code).
Proof.
  intros Hp Hone1 Huniq1.
  pose proof (one_code_per_name_perm _ _ Hp Hone1) as Hone2.
  assert (unique_best_for ms2 code) as Huniq2.
  { intros n1 n2 H1 H2.
    apply Huniq1; (apply (best_for_perm ms2 ms1); [by symmetry|done]). }
  destruct (scan_scanned ms1 Hone1) as (st1 & Hscan1 & Hst1).
  destruct (scan_scanned ms2 Hone2) as (st2 & Hscan2 & Hst2).
  pose proof (scanned_best_for ms1 st1 code Huniq1 Hst1) as Hb1.
  pose proof (scanned_best_for ms2 st2 code Huniq2 Hst2) as Hb2.
  assert (∀ name, selector2code st1 !! name = Some code
                  ↔ selector2code st2 !! name = Some code) as Hfwd.
  { intros n. rewrite Hb1, Hb2. split; apply best_for_perm; [done|by symmetry]. }
  exists st1, st2. split; [done|]. split; [done|].
  split; [exact Hfwd|]. split; [|exact Hb1].
  apply option_eq. intros n. split; intros H.
  - apply (scanned_forward _ _ Hst2), Hfwd. by apply (scanned_reverse _ _ Hst1).
  - apply (scanned_forward _ _ Hst1), Hfwd. by apply (scanned_reverse _ _ Hst2).
Qed.

Lemma streams_one_code : one_code_per_name streams_matches.
Proof.
  intros name c1 c2 H1 H2.
  change (accepted streams_matches) with streams_matches in *.
  destruct H1 as [[= <- <-]|[[= <- <-]|[]]];
    destruct H2 as [[= <-]|[[= <-]|[]]]; done.
Defined.

Lemma mixed_one_code : one_code_per_name mixed_matches.
Proof.
  intros name c1 c2 H1 H2.
  change (accepted mixed_matches) with mixed_matches in *.
  destruct H1 as [[= <- <-]|[[= <- <-]|[[= <- <-]|[[= <- <-]|[]]]]];
    destruct H2 as [[= <-]|[[= <-]|[[= <-]|[[= <-]|[]]]]]; done.
Defined.

Lemma mixed_unique_best_streams : unique_best_for mixed_matches "'stm#'".
Proof.
  intros n1 n2 [H1 B1] [H2 B2].
  change (accepted mixed_matches) with mixed_matches in *.
  destruct H1 as [[=]|[[=]|[[= <-]|[[= <-]|[]]]]];
    destruct H2 as [[=]|[[=]|[[= <-]|[[= <-]|[]]]]]; try done.
  - specialize (B1 "kAudioDevicePropertyStreams"
                  (or_intror (or_intror (or_intror (or_introl eq_refl))))).
    discriminate B1.
  - specialize (B2 "kAudioDevicePropertyStreams"
                  (or_intror (or_intror (or_intror (or_introl eq_refl))))).
    discriminate B2.
Defined.

Lemma disambiguation_order_independent_witness :
  ∃ st1 st2,
    selector_scan mixed_matches = Some st1
    ∧ selector_scan (reverse mixed_matches) = Some st2
    ∧ code2selector st1 !! "'stm#'" = code2selector st2 !! "'stm#'"
    ∧ (selector2code st1 !! "kAudioDevicePropertyLatency" = Some "'ltnc'"
       ∧ selector2code st2 !! "kAudioDevicePropertyLatency" = None).
Proof.
  destruct (disambiguation_order_independent
              mixed_matches (reverse mixed_matches) "'stm#'"
              (symmetry (reverse_Permutation mixed_matches))
              mixed_one_code mixed_unique_best_streams)
    as (st1 & st2 & H1 & H2 & _ & H3 & _).
  exists st1, st2. split; [done|]. split; [done|]. split; [done|].
  injection H1 as <-. injection H2 as <-. by vm_compute.
Defined.

(** The scan raises when a stale entry of code2selector names a selector
    that has left selector2code: [del selector2code[other_name]] has no key
    to delete. *)
Example selector_scan_raises :
  selector_scan
    [ ("kAudioClockDevicePropertyLatency", "'ltnc'");
      ("kAudioClockDevicePropertyLatency", "'lat2'");
      ("kAudioDevicePropertyLatency", "'ltnc'");
      ("kAudioStreamPropertyLatency", "'lat2'") ] = None.
Proof. vm_compute. reflexivity. Qed.

(** ** The format pass *)

Lemma format_loop_flag ms st name :
  name ∈ formatFlag (foldl format_step st ms)
  ↔ name ∈ formatFlag st
    ∨ (is_flag_name name = true ∧ ∃ code, In (name, code) ms ∧ code ≠ "0").
Proof.
  revert st. induction ms as [|[n c] ms IH]; intros st; simpl.
  - split; [by left|]. intros [H|(_ & code & [] & _)]. done.
  - rewrite IH. unfold format_step.
    destruct (is_flag_name n) eqn:Hn; [destruct (String.eqb_spec c "0") as [->|Hc]|];
      simpl.
    + split; (intros [H|(Hf & code & Hin & Hz)]; [by left|right]);
        (split; [done|]); exists code; [tauto|].
      destruct Hin as [[= <- <-]|Hin]; done.
    + rewrite elem_of_union, elem_of_singleton. split.
      * intros [[->|H]|(Hf & code & Hin & Hz)]; [|by left|].
        -- right. split; [done|]. exists c. split; [by left|done].
        -- right. split; [done|]. exists code. tauto.
      * intros [H|(Hf & code & [[= <- <-]|Hin] & Hz)]; [tauto|tauto|].
        right. split; [done|]. by exists code.
    + split; (intros [H|(Hf & code & Hin & Hz)]; [by left|right]);
        (split; [done|]); exists code; [tauto|].
      destruct Hin as [[= <- <-]|Hin]; [congruence|done].
Qed.

Lemma format_loop_id ms st name :
  name ∈ formatID (foldl format_step st ms)
  ↔ name ∈ formatID st
    ∨ (is_flag_name name = false ∧ ∃ code, In (name, code) ms).
Proof.
  revert st. induction ms as [|[n c] ms IH]; intros st; simpl.
  - split; [by left|]. intros [H|(_ & code & [])]. done.
  - rewrite IH. unfold format_step.
    destruct (is_flag_name n) eqn:Hn; [destruct (negb (String.eqb c "0"))|];
      simpl.
    + split; (intros [H|(Hf & code & Hin)]; [by left|right]);
        (split; [done|]); exists code; [tauto|].
      destruct Hin as [[= <- <-]|Hin]; [congruence|done].
    + split; (intros [H|(Hf & code & Hin)]; [by left|right]);
        (split; [done|]); exists code; [tauto|].
      destruct Hin as [[= <- <-]|Hin]; [congruence|done].
    + rewrite elem_of_union, elem_of_singleton. split.
      * intros [[->|H]|(Hf & code & Hin)]; [|by left|].
        -- right. split; [done|]. exists c. by left.
        -- right. split; [done|]. exists code. tauto.
      * intros [H|(Hf & code & [[= <- <-]|Hin])]; [tauto|tauto|].
        right. split; [done|]. by exists code.
Qed.

Lemma format_scan_flag ms name :
  name ∈ formatFlag (format_scan ms)
  ↔ is_flag_name name = true ∧ ∃ code, In (name, code) ms ∧ code ≠ "0".
Proof.
  unfold format_scan. rewrite format_loop_flag. simpl.
  split; [intros [H|H]; [set_solver|done]|by right].
Qed.

Lemma format_scan_id ms name :
  name ∈ formatID (format_scan ms)
  ↔ is_flag_name name = false ∧ ∃ code, In (name, code) ms.
Proof.
  unfold format_scan. rewrite format_loop_id. simpl.
  split; [intros [H|H]; [set_solver|done]|by right].
Qed.

(** C5 fails as stated: the definition [kAudioFormatFlagIsBigEndian = 0] is
    matched by the format pattern, is not a flag with a literal other than
    0, and yet is not put into the FormatID set; it is in neither set. *)
Lemma zero_flag_in_neither_set :
  In ("kAudioFormatFlagIsBigEndian", "0") float_bigendian_matches
  ∧ ("kAudioFormatFlagIsBigEndian" ∉ formatID (format_scan float_bigendian_matches))
  ∧ ("kAudioFormatFlagIsBigEndian" ∉ formatFlag (format_scan float_bigendian_matches)).
Proof.
  split; [right; by left|]. split.
  - rewrite format_scan_id. by intros [? _].
  - rewrite format_scan_flag. intros (_ & code & [[=]|[[= <-]|[]]] & Hz). done.
Qed.

(** C5, amended. A matched definition whose name has the flag prefix and
    whose literal is not 0 puts its name into the FormatFlag set and the
    name is not in the FormatID set; one whose name lacks the flag prefix
    puts its name into the FormatID set and the name is not in the FormatFlag
    set; one whose name has the flag prefix and whose literal is 0 adds its
    name to neither set: the name is not in the FormatID set, and is in the
    FormatFlag set only by another match of it, with a literal other
    than 0. *)
Theorem format_classification (ms : list (string * string)) (name code : string) :
  In (name, code) ms →
  (is_flag_name name = true → code ≠ "0" →
     name ∈ formatFlag (format_scan ms) ∧ name ∉ formatID (format_scan ms))
  ∧ (is_flag_name name = false →
     name ∈ formatID (format_scan ms) ∧ name ∉ formatFlag (format_scan ms))
  ∧ (is_flag_name name = true → code = "0" →
     (name ∉ formatID (format_scan ms))
     ∧ (name ∈ formatFlag (format_scan ms)
        ↔ ∃ code', In (name, code') ms ∧ code' ≠ "0")).
Proof.
  intros Hin. rewrite format_scan_flag, format_scan_id. repeat split.
  - done.
  - eauto.
  - intros [? _]. congruence.
  - done.
  - eauto.
  - intros [? _]. congruence.
  - intros [? _]. congruence.
  - by intros [_ ?].
  - done.
  - done.
Qed.

Lemma format_classification_witness :
  "kAudioFormatFlagIsFloat" ∈ formatFlag (format_scan float_bigendian_matches)
  ∧ "kAudioFormatFlagIsFloat" ∉ formatID (format_scan float_bigendian_matches).
Proof.
  apply (format_classification float_bigendian_matches
           "kAudioFormatFlagIsFloat" "1"); [by left|reflexivity|done].
Defined.

(** C6. A match of a name with the literal 0 adds nothing to the FormatFlag
    set, and a name whose matched literal is 0 (every match of it) is not in
    the final FormatFlag set. *)
Theorem zero_flag_excluded :
  (∀ (st : format_state) (name : string),
      formatFlag (format_step st (name, "0")) = formatFlag st)
  ∧ (∀ (ms : list (string * string)) (name : string),
      (∀ code, In (name, code) ms → code = "0") →
      name ∉ formatFlag (format_scan ms)).
Proof.
  split.
  - intros st name. unfold format_step. by destruct (is_flag_name name).
  - intros ms name Hzero. rewrite format_scan_flag.
    intros (_ & code & Hin & Hne). by apply Hne, Hzero.
Qed.

Lemma zero_flag_excluded_witness :
  ("kAudioFormatFlagIsBigEndian" ∉ formatFlag (format_scan float_bigendian_matches))
  ∧ "kAudioFormatFlagIsFloat" ∈ formatFlag (format_scan float_bigendian_matches).
Proof.
  split.
  - apply (proj2 zero_flag_excluded float_bigendian_matches).
    intros code [[=]|[[= <-]|[]]]. done.
  - apply format_scan_flag. split; [done|]. exists "1". split; [by left|done].
Defined.

(** ** sorted *)

Lemma name_le_lt a b : String.le a b → a ≠ b → name_lt a b.
Proof.
  unfold String.le, name_lt, String.leb, String.ltb. intros Hle Hne.
  destruct (String.compare a b) eqn:E; [|done|done].
  by apply String.compare_eq_iff in E.
Qed.

Lemma StronglySorted_le_lt l :
  StronglySorted String.le l → NoDup l → ascending l.
Proof.
  unfold ascending. induction 1 as [|x l Hs IH Hall]; intros Hnd; [constructor|].
  apply NoDup_cons in Hnd as [Hx Hnd]. constructor; [by apply IH|].
  rewrite Forall_forall in Hall |- *. intros y Hy.
  apply name_le_lt; [by apply Hall|]. by intros ->.
Qed.

Lemma sorted_perm l : sorted l ≡ₚ l.
Proof. apply merge_sort_Permutation. Qed.

Lemma sorted_ascending l : NoDup l → ascending (sorted l).
Proof.
  intros Hnd. apply StronglySorted_le_lt.
  - apply StronglySorted_merge_sort; apply _.
  - by rewrite sorted_perm.
Qed.

(** The result of [sorted] does not depend on the order of its argument. *)
Lemma sorted_unique l1 l2 : l1 ≡ₚ l2 → sorted l1 = sorted l2.
Proof.
  intros Hp. apply (StronglySorted_unique String.le).
  - apply StronglySorted_merge_sort; apply _.
  - apply StronglySorted_merge_sort; apply _.
  - by rewrite !sorted_perm.
Qed.

Lemma sorted_set_ascending it s : ascending (sorted_set it s).
Proof.
  apply sorted_ascending. rewrite iterate_perm. apply NoDup_elements.
Qed.

Lemma sorted_set_elem it s name : name ∈ sorted_set it s ↔ name ∈ s.
Proof.
  unfold sorted_set. by rewrite sorted_perm, iterate_perm, elem_of_elements.
Qed.

Lemma sorted_set_iteration it1 it2 s : sorted_set it1 s = sorted_set it2 s.
Proof. apply sorted_unique. by rewrite !iterate_perm. Qed.

Lemma sorted_keys_ascending it d : ascending (sorted_keys it d).
Proof. apply sorted_set_ascending. Qed.

Lemma sorted_keys_iteration it1 it2 d : sorted_keys it1 d = sorted_keys it2 d.
Proof. apply sorted_set_iteration. Qed.

(** ** Lines and labels *)

Lemma string_app_cons a s t : String a s +:+ t = String a (s +:+ t).
Proof. reflexivity. Qed.


Lemma string_length_app s t :
  String.length (s +:+ t) = String.length s + String.length t.
Proof.
  induction s as [|a s IH]; [done|]. rewrite string_app_cons. simpl. by rewrite IH.
Qed.


Lemma strip_prefix_app p s : strip_prefix p (p +:+ s) = Some s.
Proof.
  induction p as [|a p IH]; [done|]. rewrite string_app_cons. simpl.
  by rewrite Ascii.eqb_refl.
Qed.

Lemma strip_suffix_unfold q s :
  strip_suffix q s
  = if String.eqb s q then Some EmptyString
    else match s with
         | EmptyString => None
         | String a s' => String a <$> strip_suffix q s'
         end.
Proof. by destruct s. Qed.

Lemma strip_suffix_app q s : strip_suffix q (s +:+ q) = Some s.
Proof.
  induction s as [|a s IH].
  - rewrite strip_suffix_unfold. change (EmptyString +:+ q) with q.
    by rewrite String.eqb_refl.
  - rewrite strip_suffix_unfold, string_app_cons.
    destruct (String.eqb_spec (String a (s +:+ q)) q) as [Heq|_].
    + apply (f_equal String.length) in Heq. simpl in Heq.
      rewrite string_length_app in Heq. lia.
    + by rewrite IH.
Qed.

Lemma between_app p q s : between p q (p +:+ s +:+ q) = Some s.
Proof.
  unfold between. rewrite strip_prefix_app. simpl. apply strip_suffix_app.
Qed.

Lemma case_label_case_line name : case_label (case_line name) = Some name.
Proof. apply between_app. Qed.

Lemma bit_test_label_bit_test_line name :
  bit_test_label (bit_test_line name) = Some name.
Proof. apply between_app. Qed.

Lemma fallback_call_fallback_line arg :
  fallback_call (fallback_line arg) = Some arg.
Proof. apply between_app. Qed.

Lemma case_labels_case_lines names :
  case_labels (flat_map case_lines names) = names.
Proof.
  induction names as [|name names IH]; [done|].
  change (flat_map case_lines (name :: names))
    with (case_line name :: return_line name :: flat_map case_lines names).
  unfold case_labels in *. cbn [omap list_omap].
  rewrite case_label_case_line.
  change (case_label (return_line name)) with (@None string).
  by rewrite IH.
Qed.

Lemma bit_test_labels_flag_lines names :
  bit_test_labels (flat_map flag_lines names) = names.
Proof.
  induction names as [|name names IH]; [done|].
  change (flat_map flag_lines (name :: names))
    with (flag_lines name ++ flat_map flag_lines names).
  unfold bit_test_labels in *. rewrite omap_app, IH.
  unfold flag_lines. cbn [omap list_omap].
  rewrite bit_test_label_bit_test_line. reflexivity.
Qed.

Lemma case_labels_switch signature subject fixed names arg :
  case_label signature = None →
  case_label ("    switch (" +:+ subject +:+ ") {") = None →
  case_label (fallback_line arg) = None →
  case_labels (switch_function signature subject fixed names arg)
  = case_labels fixed ++ names.
Proof.
  intros Hsig Hsub Harg. unfold switch_function, case_labels.
  rewrite !omap_app. fold (case_labels (flat_map case_lines names)).
  rewrite case_labels_case_lines. cbn [omap list_omap].
  rewrite Hsig, Hsub, Harg. cbn. by rewrite app_nil_r.
Qed.

Lemma ClassID_labels names : case_labels (ClassIDToString_lines names) = names.
Proof. by apply case_labels_switch. Qed.

Lemma PropertySelector_labels names :
  case_labels (PropertySelectorToString_lines names) = names.
Proof. by apply case_labels_switch. Qed.

Lemma PropertyScope_labels names :
  case_labels (PropertyScopeToString_lines names) = names.
Proof. by apply case_labels_switch. Qed.

Lemma OperationID_labels names :
  case_labels (OperationIDToString_lines names) = names.
Proof. by apply case_labels_switch. Qed.

Lemma Status_labels names :
  case_labels (StatusToString_lines names) = no_error_name :: names.
Proof.
  unfold StatusToString_lines. rewrite case_labels_switch by done.
  reflexivity.
Qed.

Lemma FormatID_labels names : case_labels (FormatIDToString_lines names) = names.
Proof. by apply case_labels_switch. Qed.

Lemma FormatFlags_labels names :
  bit_test_labels (FormatFlagsToString_lines names) = names.
Proof.
  unfold FormatFlagsToString_lines, bit_test_labels. rewrite !omap_app.
  fold (bit_test_labels (flat_map flag_lines names)).
  rewrite bit_test_labels_flag_lines. cbn. by rewrite app_nil_r.
Qed.

(** C7 fails as stated: with [kAudioHardwareBadDeviceError = '!dev'] in
    error2code, StatusToString lists the case of kAudioHardwareNoError,
    which the template writes ahead of the loop, and then the case of
    kAudioHardwareBadDeviceError, which is the smaller name. *)
Lemma status_labels_not_ascending :
  case_labels (StatusToString_lines
                 (sorted_keys elements_iteration (dict_fill bad_device_matches)))
  = [ "kAudioHardwareNoError"; "kAudioHardwareBadDeviceError" ]
  ∧ ¬ ascending [ "kAudioHardwareNoError"; "kAudioHardwareBadDeviceError" ].
Proof.
  split; [by vm_compute|].
  intros H. inversion H as [|? ? _ Hall]. inversion Hall as [|? ? Hlt _].
  discriminate Hlt.
Qed.

(** C7, amended. Whatever the six tables and the order of iteration, the
    case labels that each switch-based function lists from its table, and
    the bit tests of FormatFlagsToString, are in strictly ascending order of
    name; StatusToString lists the case of kAudioHardwareNoError first, and
    after it the labels of its table in strictly ascending order. *)
Theorem sorted_emission (it : iteration) (t : tables) :
  ascending (case_labels (ClassIDToString_lines (sorted_keys it (class2code t))))
  ∧ ascending (case_labels (PropertySelectorToString_lines
                              (sorted_keys it (selector2code (selector t)))))
  ∧ ascending (case_labels (PropertyScopeToString_lines
                              (sorted_keys it (scope2code t))))
  ∧ ascending (case_labels (OperationIDToString_lines
                              (sorted_keys it (operation2code t))))
  ∧ (∃ labels,
       case_labels (StatusToString_lines (sorted_keys it (error2code t)))
       = no_error_name :: labels
       ∧ labels = sorted_keys it (error2code t)
       ∧ ascending labels)
  ∧ ascending (case_labels (FormatIDToString_lines
                              (sorted_set it (formatID (format t)))))
  ∧ ascending (bit_test_labels (FormatFlagsToString_lines
                                  (sorted_set it (formatFlag (format t))))).
Proof.
  rewrite ClassID_labels, PropertySelector_labels, PropertyScope_labels,
    OperationID_labels, FormatID_labels, FormatFlags_labels.
  repeat split; try apply sorted_set_ascending.
  eexists. split; [apply Status_labels|]. split; [done|].
  apply sorted_set_ascending.
Qed.

(** ** Determinism *)

Lemma render_lines_iteration it1 it2 script t :
  render_lines it1 script t = render_lines it2 script t.
Proof.
  unfold render_lines.
  by rewrite !(sorted_keys_iteration it1 it2), !(sorted_set_iteration it1 it2).
Qed.

(** C8. Two runs on the same preprocessed text, each with its own order of
    iteration over the sets and the keys, end alike: both raise, or both
    write the same text; and the text rendered from given tables is the
    same in both runs. *)
Theorem generation_deterministic
    (finditer : string → string → list (string * string))
    (it1 it2 : iteration) (generator_script defs : string) :
  generate finditer it1 generator_script defs
  = generate finditer it2 generator_script defs
  ∧ ∀ t, render it1 generator_script t = render it2 generator_script t.
Proof.
  assert (∀ t, render it1 generator_script t = render it2 generator_script t)
    as Hrender.
  { intros t. unfold render. by rewrite (render_lines_iteration it1 it2). }
  split; [|done]. unfold generate.
  destruct (extract finditer defs) as [t|]; simpl; [|done].
  by rewrite Hrender.
Qed.

(** ** The emitted FormatFlagsToString *)









(** ** The labels of the whole text *)

Lemma case_labels_flag_lines names :
  case_labels (flat_map flag_lines names) = [].
Proof.
  induction names as [|name names IH]; [done|].
  change (flat_map flag_lines (name :: names))
    with (flag_lines name ++ flat_map flag_lines names).
  unfold case_labels in *. by rewrite omap_app, IH.
Qed.

(** The case labels of the rendered text, in the order of the text. *)
Lemma render_case_labels it script t :
  case_labels (render_lines it script t)
  = sorted_keys it (class2code t)
    ++ sorted_keys it (selector2code (selector t))
    ++ sorted_keys it (scope2code t)
    ++ sorted_keys it (operation2code t)
    ++ no_error_name :: sorted_keys it (error2code t)
    ++ sorted_set it (formatID (format t)).
Proof.
  unfold render_lines, case_labels. rewrite !omap_app.
  fold (case_labels (ClassIDToString_lines (sorted_keys it (class2code t)))).
  fold (case_labels (PropertySelectorToString_lines
                       (sorted_keys it (selector2code (selector t))))).
  fold (case_labels (PropertyScopeToString_lines (sorted_keys it (scope2code t)))).
  fold (case_labels (OperationIDToString_lines
                       (sorted_keys it (operation2code t)))).
  fold (case_labels (StatusToString_lines (sorted_keys it (error2code t)))).
  fold (case_labels (FormatIDToString_lines (sorted_set it (formatID (format t))))).
  rewrite ClassID_labels, PropertySelector_labels, PropertyScope_labels,
    OperationID_labels, Status_labels, FormatID_labels.
  unfold FormatFlagsToString_lines. rewrite !omap_app.
  fold (case_labels (flat_map flag_lines (sorted_set it (formatFlag (format t))))).
  rewrite case_labels_flag_lines.
  change (omap case_label (preamble_lines script)) with (@nil string).
  cbn. by rewrite !app_nil_r.
Qed.

(** ** The scenarios of the specification *)

Example streams_scenario :
  selector2code <$> selector_scan streams_matches
  = Some {[ "kAudioDevicePropertyStreams" := "'stm#'" ]}.
Proof. vm_compute. reflexivity. Qed.

Example scope_scenario :
  selector2code <$> selector_scan [ ("kAudioObjectPropertyScopeGlobal", "'glob'") ]
  = Some ∅
  ∧ dict_fill [ ("kAudioObjectPropertyScopeGlobal", "'glob'") ]
    = {[ "kAudioObjectPropertyScopeGlobal" := "'glob'" ]}.
Proof. split; vm_compute; reflexivity. Qed.

Example float_bigendian_scenario :
  formatFlag (format_scan float_bigendian_matches) = {[ "kAudioFormatFlagIsFloat" ]}
  ∧ formatID (format_scan float_bigendian_matches) = ∅.
Proof. split; vm_compute; reflexivity. Qed.

Example both_flags_set :
  FormatFlagsToString flag_value
    (sorted_set reverse_iteration
       (formatFlag (format_scan
          [ ("kAudioFormatFlagIsFloat", "(1U");
            ("kAudioFormatFlagIsBigEndian", "(1U") ])))
    3
  = "kAudioFormatFlagIsBigEndian|kAudioFormatFlagIsFloat".
Proof. vm_compute. reflexivity. Qed.

(** * Further properties of the script *)

(** ** selector_is_better as an order *)

(** X1. selector_is_better is a strict order on names: no name is better
    than itself, two names are never each better than the other, and better
    is transitive. *)
Theorem selector_is_better_strict_order :
  (∀ a, selector_is_better a a = false)
  ∧ (∀ a b, selector_is_better a b = true → selector_is_better b a = false)
  ∧ (∀ a b c, selector_is_better a b = true → selector_is_better b c = true →
              selector_is_better a c = true).
Proof.
  split; [apply selector_is_better_irrefl|]. split.
  - intros a b Hab. destruct (selector_is_better b a) eqn:Hba; [|done].
    pose proof (selector_is_better_trans _ _ _ Hab Hba) as Haa.
    by rewrite selector_is_better_irrefl in Haa.
  - apply selector_is_better_trans.
Qed.

Lemma selector_is_better_strict_order_witness :
  selector_is_better "kAudioDevicePropertyStreams" "kAudioClockDevicePropertyClockDomain"
  = true.
Proof.
  apply (proj2 (proj2 selector_is_better_strict_order)
           "kAudioDevicePropertyStreams" "kAudioClockDevicePropertyStreams"
           "kAudioClockDevicePropertyClockDomain"); reflexivity.
Defined.

(** X2. Neither of two names is better than the other exactly when both
    are in the same priority class and have the same length: those are the
    ties that the order of discovery settles. *)
Theorem selector_tie (a b : string) :
  selector_is_better a b = false ∧ selector_is_better b a = false
  ↔ is_highprio a = is_highprio b ∧ String.length a = String.length b.
Proof.
  unfold selector_is_better.
  destruct (is_highprio a), (is_highprio b); simpl;
    rewrite ?Nat.ltb_ge; split; intros [? ?]; try done; split; try done; lia.
Qed.

(** ** The selector pass, whatever the matches *)

Lemma selector_loop_accepted st ms :
  selector_loop st ms = selector_loop st (accepted ms).
Proof.
  revert st. induction ms as [|[name code] ms IH]; intros st; [done|].
  change (accepted ((name, code) :: ms))
    with (if negb (selector_skipped name)
          then (name, code) :: accepted ms else accepted ms).
  destruct (selector_skipped name) eqn:Hskip; cbn [negb].
  - cbn [selector_loop]. unfold selector_step. rewrite Hskip. apply IH.
  - cbn [selector_loop]. destruct (selector_step st (name, code)); [apply IH|done].
Qed.

(** X3. The matches that one of the four guards skips have no effect: the
    scan of the matches is the scan of the accepted ones. *)
Theorem selector_scan_accepted (ms : list (string * string)) :
  selector_scan ms = selector_scan (accepted ms).
Proof. apply selector_loop_accepted. Qed.

Lemma selector_scan_snoc ms m st' :
  selector_scan (ms ++ [m]) = Some st' →
  ∃ st, selector_scan ms = Some st ∧ selector_step st m = Some st'.
Proof.
  unfold selector_scan. rewrite selector_loop_app.
  destruct (selector_loop selector_init ms) as [st|]; [|done].
  cbn -[selector_step]. destruct (selector_step st m) eqn:E; [|done].
  intros [= <-]. eauto.
Qed.

(** What a completed scan has established, whatever the matches. *)
Lemma scan_traced ms st :
  selector_scan ms = Some st →
  (∀ n c, selector2code st !! n = Some c → In (n, c) (accepted ms))
  ∧ (∀ n c, code2selector st !! c = Some n → In (n, c) (accepted ms))
  ∧ (∀ n c, In (n, c) (accepted ms) →
       ∃ w, code2selector st !! c = Some w ∧ selector_is_better n w = false).
Proof.
  revert st. induction ms as [|[name code] ms IH] using rev_ind; intros st Hscan.
  - injection Hscan as <-. simpl. split; [|split].
    + intros n c. by rewrite lookup_empty.
    + intros n c. by rewrite lookup_empty.
    + intros n c [].
  - apply selector_scan_snoc in Hscan as (st0 & Hscan & Hstep).
    destruct (IH st0 Hscan) as (Hfwd & Hrev & Hwin).
    apply selector_step_cases in Hstep
      as [[Hs ->]|[(Hs & other & Ho & Hb & ->)|[(Hs & other & Ho & Hb & _ & ->)
                                              |(Hs & Hn & ->)]]];
      rewrite accepted_snoc, Hs.
    + by rewrite app_nil_r.
    + split; [|split].
      * intros n c H. apply in_app_iff. left. eauto.
      * intros n c H. apply in_app_iff. left. eauto.
      * intros n c. rewrite in_app_iff. intros [H|[[= <- <-]|[]]]; eauto.
    + simpl. split; [|split].
      * intros n c. rewrite in_app_iff, lookup_insert. case_decide as Hn.
        -- intros [= <-]. subst n. right. by left.
        -- intros Hd. apply lookup_delete_Some in Hd as [_ Hd]. left. eauto.
      * intros n c. rewrite in_app_iff, lookup_insert. case_decide as Hc.
        -- intros [= <-]. subst c. right. by left.
        -- intros H. left. eauto.
      * intros n c. rewrite in_app_iff. intros [Hin|[[= <- <-]|[]]].
        -- destruct (Hwin _ _ Hin) as (w & Hw & Hbw).
           rewrite lookup_insert. case_decide as Hc; [|eauto].
           subst c. exists name. split; [done|].
           assert (w = other) as -> by congruence.
           destruct (selector_is_better n name) eqn:Hnn; [|done].
           by rewrite (selector_is_better_trans _ _ _ Hnn Hb) in Hbw.
        -- exists name. rewrite lookup_insert_eq.
           split; [done|apply selector_is_better_irrefl].
    + simpl. split; [|split].
      * intros n c. rewrite in_app_iff, lookup_insert. case_decide as Hc.
        -- intros [= <-]. subst n. right. by left.
        -- intros H. left. eauto.
      * intros n c. rewrite in_app_iff, lookup_insert. case_decide as Hc.
        -- intros [= <-]. subst c. right. by left.
        -- intros H. left. eauto.
      * intros n c. rewrite in_app_iff. intros [Hin|[[= <- <-]|[]]].
        -- destruct (Hwin _ _ Hin) as (w & Hw & Hbw).
           exists w. split; [|done]. rewrite lookup_insert_ne; [done|].
           intros <-. congruence.
        -- exists name. rewrite lookup_insert_eq.
           split; [done|apply selector_is_better_irrefl].
Qed.

(** X5. Every entry of selector2code, and every entry of code2selector, of a
    completed scan is an accepted match: the name was matched with that
    code and passed the guards. *)
Theorem selector_entries_matched (ms : list (string * string))
    (st : selector_state) (name code : string) :
  selector_scan ms = Some st →
  selector2code st !! name = Some code ∨ code2selector st !! code = Some name →
  In (name, code) ms ∧ selector_skipped name = false.
Proof.
  intros Hscan H. apply accepted_In.
  destruct (scan_traced ms st Hscan) as (Hfwd & Hrev & _).
  destruct H; eauto.
Qed.

Lemma selector_entries_matched_witness :
  In ("kAudioDevicePropertyStreams", "'stm#'") streams_matches
  ∧ selector_skipped "kAudioDevicePropertyStreams" = false.
Proof.
  eapply (selector_entries_matched streams_matches); [reflexivity|].
  left. by vm_compute.
Defined.

(** X6. After a completed scan code2selector has an entry exactly for the
    codes of the accepted matches, and no accepted name matched with a code
    is better than the name that code2selector keeps for it. *)
Theorem selector_winner_unbeaten (ms : list (string * string))
    (st : selector_state) :
  selector_scan ms = Some st →
  (∀ code, is_Some (code2selector st !! code)
           ↔ ∃ name, In (name, code) (accepted ms))
  ∧ (∀ name code winner,
       In (name, code) (accepted ms) →
       code2selector st !! code = Some winner →
       selector_is_better name winner = false).
Proof.
  intros Hscan. destruct (scan_traced ms st Hscan) as (_ & Hrev & Hwin). split.
  - intros code. split.
    + intros [name H]. eauto.
    + intros [name H]. destruct (Hwin _ _ H) as (w & Hw & _). eauto.
  - intros name code winner Hin Hw.
    destruct (Hwin _ _ Hin) as (w & Hw' & Hb). congruence.
Qed.

Lemma selector_winner_unbeaten_witness :
  selector_is_better "kAudioClockDevicePropertyStreams" "kAudioDevicePropertyStreams"
  = false.
Proof.
  eapply (proj2 (selector_winner_unbeaten streams_matches _ eq_refl) _ "'stm#'").
  - left. reflexivity.
  - by vm_compute.
Defined.

Lemma selector_loop_fixed st ms :
  (∀ m, In m ms → selector_step st m = Some st) → selector_loop st ms = Some st.
Proof.
  induction ms as [|m ms IH]; intros H; [done|].
  cbn [selector_loop]. rewrite (H m) by (by left).
  apply IH. intros m' Hm'. apply H. by right.
Qed.

(** X7. Scanning the same matches a second time changes nothing: from the
    state that a completed scan has reached, the loop over the same matches
    ends in that state, so the scan of the matches written twice is the scan
    of the matches. *)
Theorem selector_scan_twice (ms : list (string * string)) (st : selector_state) :
  selector_scan ms = Some st →
  selector_loop st ms = Some st ∧ selector_scan (ms ++ ms) = Some st.
Proof.
  intros Hscan.
  assert (selector_loop st ms = Some st) as Hloop.
  { apply selector_loop_fixed. intros [name code] Hin. unfold selector_step.
    destruct (selector_skipped name) eqn:Hskip; [done|].
    destruct (scan_traced ms st Hscan) as (_ & _ & Hwin).
    destruct (Hwin name code) as (w & -> & ->); [|done].
    by apply accepted_In. }
  split; [done|]. unfold selector_scan in *.
  by rewrite selector_loop_app, Hscan.
Qed.

Lemma selector_scan_twice_witness :
  ∃ st, selector_scan streams_matches = Some st
        ∧ selector_scan (streams_matches ++ streams_matches) = Some st.
Proof.
  eexists. split; [reflexivity|].
  apply (selector_scan_twice streams_matches). reflexivity.
Defined.

(** ** The selector pass when no accepted name has two codes *)

(** X4. The scan does not raise KeyError when no accepted name is matched
    with two different codes. *)
Theorem selector_scan_completes (ms : list (string * string)) :
  one_code_per_name ms → is_Some (selector_scan ms).
Proof.
  intros Hone. destruct (scan_scanned ms Hone) as (st & Hscan & _). eauto.
Qed.

Lemma selector_scan_completes_witness : is_Some (selector_scan streams_matches).
Proof. apply selector_scan_completes, streams_one_code. Defined.

(** X8. When no accepted name is matched with two different codes, the final
    code2selector is the inverse of selector2code (no stale entry), and each
    code of an accepted match has exactly one name in selector2code. *)
Theorem selector_one_winner_per_code (ms : list (string * string))
    (st : selector_state) :
  one_code_per_name ms →
  selector_scan ms = Some st →
  (∀ name code, code2selector st !! code = Some name
                ↔ selector2code st !! name = Some code)
  ∧ (∀ name code, In (name, code) (accepted ms) →
       ∃ winner, selector2code st !! winner = Some code
                 ∧ ∀ other, selector2code st !! other = Some code → other = winner).
Proof.
  intros Hone Hscan.
  destruct (scan_scanned ms Hone) as (st' & Hscan' & [Hseen Hfwd Hrev Hwin]).
  assert (st' = st) as -> by congruence. split.
  - intros name code. split; [apply Hrev|apply Hfwd].
  - intros name code Hin. destruct (Hwin _ _ Hin) as (w & Hw & _).
    exists w. split; [by apply Hrev|].
    intros other Ho. apply Hfwd in Ho. congruence.
Qed.

Lemma selector_one_winner_per_code_witness :
  ∃ st, selector_scan streams_matches = Some st
        ∧ (code2selector st !! "'stm#'" = Some "kAudioDevicePropertyStreams"
           ↔ selector2code st !! "kAudioDevicePropertyStreams" = Some "'stm#'").
Proof.
  eexists. split; [reflexivity|].
  apply (selector_one_winner_per_code streams_matches _ streams_one_code eq_refl).
Defined.

(** The entry of a name that nothing later beats stays through the loop. *)
Lemma selector_loop_keeps ms0 ms st w c :
  scanned ms0 st →
  one_code_per_name (ms0 ++ ms) →
  selector2code st !! w = Some c →
  (∀ n, In (n, c) (accepted ms) → selector_is_better n w = false) →
  ∃ st', selector_loop st ms = Some st' ∧ selector2code st' !! w = Some c.
Proof.
  revert ms0 st. induction ms as [|[n' c'] ms IH]; intros ms0 st Hst Hone Hw Hlater.
  { exists st. by split. }
  assert (one_code_per_name (ms0 ++ [(n', c')])) as Hone1.
  { apply (one_code_per_name_app_l _ ms). by rewrite <- app_assoc. }
  destruct (scanned_step ms0 st n' c' Hone1 Hst) as (st1 & Hstep & Hst1).
  cbn [selector_loop]. rewrite Hstep.
  apply (IH (ms0 ++ [(n', c')]) st1 Hst1).
  - by rewrite <- app_assoc.
  - destruct Hst as [Hseen Hfwd Hrev Hwin].
    apply selector_step_cases in Hstep
      as [[_ ->]|[(_ & other & _ & _ & ->)|[(Hs & other & Ho & Hb & _ & ->)
                                           |(Hs & Hn & ->)]]]; try done.
    + assert (c' ≠ c) as Hc.
      { intros ->. apply Hfwd in Hw. rewrite Hw in Ho. injection Ho as <-.
        rewrite Hlater in Hb; [done|].
        apply accepted_In. split; [by left|done]. }
      assert (n' ≠ w) as Hn'.
      { intros ->. apply Hc. apply (Hone w).
        - apply accepted_In. rewrite in_app_iff. split; [right; by left|done].
        - apply accepted_In. apply Hseen, accepted_In in Hw as [Hw _].
          rewrite in_app_iff. split; [by left|done]. }
      simpl. rewrite lookup_insert_ne by done.
      rewrite lookup_delete_ne; [done|].
      intros ->. apply Hrev in Ho. congruence.
    + assert (c' ≠ c) as Hc.
      { intros ->. apply Hfwd in Hw. congruence. }
      assert (n' ≠ w) as Hn'.
      { intros ->. apply Hc. apply (Hone w).
        - apply accepted_In. rewrite in_app_iff. split; [right; by left|done].
        - apply accepted_In. apply Hseen, accepted_In in Hw as [Hw _].
          rewrite in_app_iff. split; [by left|done]. }
      simpl. by rewrite lookup_insert_ne.
  - intros n Hin. apply Hlater. apply accepted_In in Hin as [Hin Hs].
    apply accepted_In. split; [by right|done].
Qed.

(** X9. The first of the best names wins.  When no accepted name is matched
    with two codes, an accepted match (winner, code) that is better than
    every accepted name matched with the code before it, and that no
    accepted name matched with the code after it is better than, is the
    entry of the code in the final selector2code. *)
Theorem selector_first_best_wins (ms1 ms2 : list (string * string))
    (winner code : string) :
  one_code_per_name (ms1 ++ (winner, code) :: ms2) →
  selector_skipped winner = false →
  (∀ n, In (n, code) (accepted ms1) → selector_is_better winner n = true) →
  (∀ n, In (n, code) (accepted ms2) → selector_is_better n winner = false) →
  ∃ st, selector_scan (ms1 ++ (winner, code) :: ms2) = Some st
        ∧ selector2code st !! winner = Some code
        ∧ code2selector st !! code = Some winner.
Proof.
  intros Hone Hskip Hbefore Hafter.
  assert (one_code_per_name (ms1 ++ [(winner, code)])) as Hone1.
  { apply (one_code_per_name_app_l _ ms2). by rewrite <- app_assoc. }
  destruct (scan_scanned _ Hone1) as (st1 & Hscan1 & Hst1).
  assert (selector2code st1 !! winner = Some code) as Hw.
  { destruct Hst1 as [Hseen Hfwd Hrev Hwin].
    destruct (Hwin winner code) as (w & Hw & Hb).
    { rewrite accepted_snoc, Hskip, in_app_iff. right. by left. }
    pose proof (Hrev _ _ Hw) as Hw'. apply Hseen in Hw'.
    rewrite accepted_snoc, Hskip, in_app_iff in Hw'.
    destruct Hw' as [Hin|[[= ->]|[]]]; [|by apply Hrev].
    by rewrite (Hbefore _ Hin) in Hb. }
  destruct (selector_loop_keeps (ms1 ++ [(winner, code)]) ms2 st1 winner code)
    as (st & Hloop & Hst); try done.
  { by rewrite <- app_assoc. }
  assert (selector_scan (ms1 ++ (winner, code) :: ms2) = Some st) as Hscan.
  { unfold selector_scan in *.
    change (ms1 ++ (winner, code) :: ms2) with (ms1 ++ [(winner, code)] ++ ms2).
    by rewrite app_assoc, selector_loop_app, Hscan1. }
  exists st. split; [done|]. split; [done|].
  by apply (consistent_scan _ _ Hscan).
Qed.

Lemma latency_one_code : one_code_per_name latency_matches.
Proof.
  intros name c1 c2 H1 H2.
  change (accepted latency_matches) with latency_matches in *.
  destruct H1 as [[= <- <-]|[[= <- <-]|[]]];
    destruct H2 as [[= <-]|[[= <-]|[]]]; done.
Defined.

Lemma selector_first_best_wins_witness :
  ∃ st, selector_scan latency_matches = Some st
        ∧ selector2code st !! "kAudioDevicePropertyLatency" = Some "'ltnc'"
        ∧ code2selector st !! "'ltnc'" = Some "kAudioDevicePropertyLatency".
Proof.
  apply (selector_first_best_wins []
           [ ("kAudioStreamPropertyLatency", "'ltnc'") ]
           "kAudioDevicePropertyLatency" "'ltnc'").
  - apply latency_one_code.
  - reflexivity.
  - intros n [].
  - intros n [[= <-]|[]]. reflexivity.
Defined.

(** ** The plain dictionaries *)

Lemma dict_fill_snoc ms name code :
  dict_fill (ms ++ [(name, code)]) = <[name := code]> (dict_fill ms).
Proof. unfold dict_fill. by rewrite foldl_app. Qed.

(** X10. In a dictionary filled from the matches, a name has the code of the
    last match of that name, and a name is missing exactly when no match has
    it. *)
Theorem dict_fill_last_match (ms : list (string * string)) (name : string) :
  dict_fill ms !! name
  = snd <$> last (List.filter (λ m, String.eqb m.1 name) ms)
  ∧ (dict_fill ms !! name = None ↔ ∀ code, ¬ In (name, code) ms).
Proof.
  split.
  - induction ms as [|[n c] ms IH] using rev_ind; [done|].
    rewrite dict_fill_snoc, List.filter_app, lookup_insert. simpl.
    destruct (String.eqb_spec n name) as [->|Hne].
    + rewrite decide_True by done. by rewrite last_snoc.
    + rewrite decide_False by done. by rewrite app_nil_r.
  - induction ms as [|[n c] ms IH] using rev_ind.
    + split; [by intros _ code []|]. intros _. apply lookup_empty.
    + rewrite dict_fill_snoc, lookup_insert_None, IH. split.
      * intros [Hno Hne] code. rewrite in_app_iff.
        intros [H|[[= -> _]|[]]]; [by apply (Hno code)|done].
      * intros Hno. split.
        -- intros code Hin. apply (Hno code), in_app_iff. by left.
        -- intros ->. apply (Hno c), in_app_iff. right. by left.
Qed.

(** ** The format pass *)

(** X11. The two format sets never share a name: every name of the
    FormatFlag set has the flag prefix and no name of the FormatID set
    has it. *)
Theorem format_sets_disjoint (ms : list (string * string)) :
  formatID (format_scan ms) ## formatFlag (format_scan ms)
  ∧ (∀ name, name ∈ formatFlag (format_scan ms) → is_flag_name name = true)
  ∧ (∀ name, name ∈ formatID (format_scan ms) → is_flag_name name = false).
Proof.
  split; [|split].
  - intros name Hid Hflag.
    apply format_scan_id in Hid as [Hid _].
    apply format_scan_flag in Hflag as [Hflag _]. congruence.
  - intros name H. by apply format_scan_flag in H as [? _].
  - intros name H. by apply format_scan_id in H as [? _].
Qed.

(** X12. The two format sets depend only on which (name, literal) pairs are
    matched, not on their order nor on how often each is matched. *)
Theorem format_scan_same_matches (ms1 ms2 : list (string * string)) :
  (∀ m, In m ms1 ↔ In m ms2) → format_scan ms1 = format_scan ms2.
Proof.
  intros Hsame.
  assert (formatID (format_scan ms1) = formatID (format_scan ms2)) as Hid.
  { apply set_eq. intros name. rewrite !format_scan_id.
    split; intros (? & code & Hin); (split; [done|]); exists code; by apply Hsame. }
  assert (formatFlag (format_scan ms1) = formatFlag (format_scan ms2)) as Hflag.
  { apply set_eq. intros name. rewrite !format_scan_flag.
    split; intros (? & code & Hin & ?); (split; [done|]); exists code;
      (split; [by apply Hsame|done]). }
  destruct (format_scan ms1), (format_scan ms2). simpl in *. congruence.
Qed.

Lemma format_scan_same_matches_witness :
  format_scan float_bigendian_matches
  = format_scan (float_bigendian_matches ++ reverse float_bigendian_matches).
Proof.
  apply format_scan_same_matches. intros m. rewrite in_app_iff.
  split; [by left|]. intros [H|H]; [done|].
  destruct H as [<-|[<-|[]]]; [right; by left|by left].
Defined.

(** ** The rendered text *)

Lemma omap_case_lines (r : string → option string) names :
  (∀ name, r (case_line name) = None) →
  (∀ name, r (return_line name) = None) →
  omap r (flat_map case_lines names) = [].
Proof.
  intros Hc Hr. induction names as [|name names IH]; [done|].
  change (flat_map case_lines (name :: names))
    with (case_line name :: return_line name :: flat_map case_lines names).
  cbn [omap list_omap]. by rewrite Hc, Hr, IH.
Qed.

Lemma bit_test_labels_switch signature subject fixed names arg :
  bit_test_label signature = None →
  bit_test_label ("    switch (" +:+ subject +:+ ") {") = None →
  bit_test_label (fallback_line arg) = None →
  bit_test_labels (switch_function signature subject fixed names arg)
  = bit_test_labels fixed.
Proof.
  intros Hsig Hsub Harg. unfold switch_function, bit_test_labels.
  rewrite !omap_app, omap_case_lines by done. cbn [omap list_omap].
  rewrite Hsig, Hsub, Harg. cbn. by rewrite app_nil_r.
Qed.

Lemma fallback_calls_switch signature subject fixed names arg :
  fallback_call signature = None →
  fallback_call ("    switch (" +:+ subject +:+ ") {") = None →
  fallback_calls (switch_function signature subject fixed names arg)
  = fallback_calls fixed ++ [arg].
Proof.
  intros Hsig Hsub. unfold switch_function, fallback_calls.
  rewrite !omap_app, omap_case_lines by done. cbn [omap list_omap].
  rewrite Hsig, Hsub, fallback_call_fallback_line. by cbn.
Qed.

Lemma fallback_calls_flag_lines names :
  fallback_calls (flat_map flag_lines names) = [].
Proof.
  induction names as [|name names IH]; [done|].
  change (flat_map flag_lines (name :: names))
    with (flag_lines name ++ flat_map flag_lines names).
  unfold fallback_calls in *. by rewrite omap_app, IH.
Qed.

(** X13. The case labels of the rendered text are, in the order of the
    text, the sorted names of class2code, selector2code, scope2code and
    operation2code, then kAudioHardwareNoError and the sorted names of
    error2code, then the sorted names of formatID; its bit tests are the
    sorted names of formatFlag.  Every name of a table has its label once
    and no other label is emitted. *)
Theorem rendered_labels (it : iteration) (generator_script : string) (t : tables) :
  case_labels (render_lines it generator_script t)
  = sorted_keys it (class2code t)
    ++ sorted_keys it (selector2code (selector t))
    ++ sorted_keys it (scope2code t)
    ++ sorted_keys it (operation2code t)
    ++ no_error_name :: sorted_keys it (error2code t)
    ++ sorted_set it (formatID (format t))
  ∧ bit_test_labels (render_lines it generator_script t)
    = sorted_set it (formatFlag (format t)).
Proof.
  split; [apply render_case_labels|].
  unfold render_lines, bit_test_labels. rewrite !omap_app.
  fold (bit_test_labels (ClassIDToString_lines (sorted_keys it (class2code t)))).
  fold (bit_test_labels (PropertySelectorToString_lines
                           (sorted_keys it (selector2code (selector t))))).
  fold (bit_test_labels (PropertyScopeToString_lines
                           (sorted_keys it (scope2code t)))).
  fold (bit_test_labels (OperationIDToString_lines
                           (sorted_keys it (operation2code t)))).
  fold (bit_test_labels (StatusToString_lines (sorted_keys it (error2code t)))).
  fold (bit_test_labels (FormatIDToString_lines
                           (sorted_set it (formatID (format t))))).
  fold (bit_test_labels (FormatFlagsToString_lines
                           (sorted_set it (formatFlag (format t))))).
  unfold ClassIDToString_lines, PropertySelectorToString_lines,
    PropertyScopeToString_lines, OperationIDToString_lines,
    StatusToString_lines, FormatIDToString_lines.
  rewrite !bit_test_labels_switch by done. rewrite FormatFlags_labels.
  change (omap bit_test_label (preamble_lines generator_script)) with (@nil string).
  cbn. by rewrite app_nil_r.
Qed.

(** X14. Whatever the tables, the rendered text calls CodeToString six
    times, once at the end of each switch-based function and in the order
    of the functions, with the arguments classID, selector, scope,
    operationID, UInt32(status) and formatID; FormatFlagsToString has no such
    call. *)
Theorem rendered_fallbacks (it : iteration) (generator_script : string)
    (t : tables) :
  fallback_calls (render_lines it generator_script t)
  = [ "classID"; "selector"; "scope"; "operationID"; "UInt32(status)"; "formatID" ].
Proof.
  unfold render_lines, fallback_calls. rewrite !omap_app.
  fold (fallback_calls (ClassIDToString_lines (sorted_keys it (class2code t)))).
  fold (fallback_calls (PropertySelectorToString_lines
                          (sorted_keys it (selector2code (selector t))))).
  fold (fallback_calls (PropertyScopeToString_lines
                          (sorted_keys it (scope2code t)))).
  fold (fallback_calls (OperationIDToString_lines
                          (sorted_keys it (operation2code t)))).
  fold (fallback_calls (StatusToString_lines (sorted_keys it (error2code t)))).
  fold (fallback_calls (FormatIDToString_lines
                          (sorted_set it (formatID (format t))))).
  unfold ClassIDToString_lines, PropertySelectorToString_lines,
    PropertyScopeToString_lines, OperationIDToString_lines,
    StatusToString_lines, FormatIDToString_lines.
  rewrite !fallback_calls_switch by done.
  unfold FormatFlagsToString_lines. rewrite !omap_app.
  fold (fallback_calls (flat_map flag_lines (sorted_set it (formatFlag (format t))))).
  rewrite fallback_calls_flag_lines.
  change (omap fallback_call (preamble_lines generator_script)) with (@nil string).
  reflexivity.
Qed.

Lemma sorted_set_NoDup it s : NoDup (sorted_set it s).
Proof.
  unfold sorted_set. rewrite sorted_perm, iterate_perm. apply NoDup_elements.
Qed.

(** X15. The case labels of each switch-based function other than
    StatusToString are pairwise distinct; those of StatusToString are
    pairwise distinct exactly when kAudioHardwareNoError is not a key of
    error2code, since the template writes that case by hand and the loop
    writes it again for the key. *)
Theorem status_labels_distinct (it : iteration) (t : tables) :
  NoDup (case_labels (ClassIDToString_lines (sorted_keys it (class2code t))))
  ∧ NoDup (case_labels (PropertySelectorToString_lines
                          (sorted_keys it (selector2code (selector t)))))
  ∧ NoDup (case_labels (PropertyScopeToString_lines
                          (sorted_keys it (scope2code t))))
  ∧ NoDup (case_labels (OperationIDToString_lines
                          (sorted_keys it (operation2code t))))
  ∧ NoDup (case_labels (FormatIDToString_lines
                          (sorted_set it (formatID (format t)))))
  ∧ (NoDup (case_labels (StatusToString_lines (sorted_keys it (error2code t))))
     ↔ error2code t !! no_error_name = None).
Proof.
  rewrite ClassID_labels, PropertySelector_labels, PropertyScope_labels,
    OperationID_labels, FormatID_labels, Status_labels.
  repeat (split; [apply sorted_set_NoDup|]).
  change (sorted_keys it (error2code t))
    with (sorted_set it (dom (error2code t))).
  rewrite NoDup_cons, sorted_set_elem, elem_of_dom, <- eq_None_not_Some.
  split; [by intros [? _]|]. intros H. split; [done|apply sorted_set_NoDup].
Qed.
